(** * HKDF (RFC 5869) as implemented in hkdf/hkdf.go

    A shallow embedding of [Extract], [Expand], [New] and the streaming
    [Read] of the unexported [hkdf] reader, followed by the properties of
    the specification that concern them.

    Conventions of the embedding.
    - A Go [byte] is a [Byte.byte]; arithmetic on it goes through [Z] and is
      reduced modulo 256 ([byte_of_Z]).
    - A Go [int] is a [Z]; additions and multiplications wrap to the signed
      64-bit range ([wrap_int]).
    - A [[]byte] whose nil-ness is tested by the code (the salt) is an
      [option (list byte)], [None] being the nil slice.  Every other slice is
      only read through its elements and is the list of them.
    - [crypto/hmac] and the hash are external; they are the [HashFn]
      interface below.
    - The caller's buffer [p] is passed to [Read] by its contents and comes
      back with the contents it has when [Read] returns.  It shares no
      memory with [info], which the reader keeps by reference and which is
      taken not to change between calls. *)

From Stdlib Require Import ZArith List Lia Bool.
From Stdlib Require Import Strings.Byte.
From Stdlib Require Strings.String.
Import String.StringSyntax.
Local Delimit Scope string_scope with string.
Import ListNotations.
Local Open Scope Z_scope.

Definition byte : Set := Byte.byte.

(** ** Machine arithmetic *)

Module GoInt.

Definition Z_of_byte (b : byte) : Z := Z.of_N (Byte.to_N b).

(** Conversion to [byte] keeps the low eight bits. *)
Definition byte_of_Z (z : Z) : byte :=
  match Byte.of_N (Z.to_N (z mod 256)) with
  | Some b => b
  | None => x00
  end.

Definition byte_add (a b : byte) : byte := byte_of_Z (Z_of_byte a + Z_of_byte b).
Definition byte_sub (a b : byte) : byte := byte_of_Z (Z_of_byte a - Z_of_byte b).

Definition max_int : Z := 2 ^ 63 - 1.

(** Two's complement wrap-around of a 64-bit [int]. *)
Definition wrap_int (z : Z) : Z := (z + 2 ^ 63) mod 2 ^ 64 - 2 ^ 63.

Definition int_add (a b : Z) : Z := wrap_int (a + b).
Definition int_mul (a b : Z) : Z := wrap_int (a * b).

(** [len] of a slice; a slice length always fits an [int]. *)
Definition len {A} (l : list A) : Z := Z.of_nat (length l).

End GoInt.
Import GoInt.

(** ** The hash capability

    [hash func() hash.Hash] is only ever handed to [hmac.New] and asked for
    its [Size].  The interface records what the package relies on: the digest
    [hmac_sum key message] of HMAC under that hash has [Size] bytes, and
    [Size] is small enough for the capacity computation of [Read] to stay in
    the range of [int] (a digest of [Size] bytes is a slice in memory, so
    [Size] is far below [max_int / 256]). *)

Class HashFn := {
  Size : nat;
  hmac_sum : list byte -> list byte -> list byte;
  hmac_sum_length : forall key msg, length (hmac_sum key msg) = Size;
  Size_fits_int : 256 * Z.of_nat Size <= max_int
}.

(** The value returned by [hmac.New]: a [hash.Hash] holding the key and the
    bytes written since the last [Reset]. *)
Record hmac := mk_hmac { hkey : list byte; hmsg : list byte }.

Definition error : Set := String.string.

Section HKDF.

Context {H : HashFn}.

Definition hmac_New (key : list byte) : hmac := mk_hmac key [].
Definition Reset (h : hmac) : hmac := mk_hmac (hkey h) [].
Definition Write (h : hmac) (p : list byte) : hmac := mk_hmac (hkey h) (hmsg h ++ p).
(** [Sum(b)] appends the digest of what was written to [b]. *)
Definition Sum (h : hmac) (b : list byte) : list byte := b ++ hmac_sum (hkey h) (hmsg h).
Definition hmac_Size (h : hmac) : Z := Z.of_nat Size.

(** [make([]byte, n)] *)
Definition make (n : nat) : list byte := repeat x00 n.

(** The salt that keys the extractor, after lines 27-29. *)
Definition Extract_salt (salt : option (list byte)) : list byte :=
  match salt with
  | None => make Size
  | Some s => s
  end.

Definition Extract (secret : list byte) (salt : option (list byte)) : list byte :=
  let salt := Extract_salt salt in
  let extractor := hmac_New salt in
  let extractor := Write extractor secret in
  Sum extractor [].

(** [type hkdf struct].  [prev] and [buf] are nil after [Expand]; they are
    never compared with nil, so they are lists.  After a block is generated
    [buf] is a sub-slice of [prev]'s array, and [Sum(f.prev[:0])] may write
    the next digest over that array: [buf] is reassigned (line 67) before it
    is read again, so the fields are values here. *)
Record hkdf := mk_hkdf {
  expander : hmac;
  size : Z;
  info : list byte;
  counter : byte;
  prev : list byte;
  buf : list byte
}.

Definition set_buf (f : hkdf) (b : list byte) : hkdf :=
  mk_hkdf (expander f) (size f) (info f) (counter f) (prev f) b.

(** [copy(dst, src)]: the new contents of [dst] and the number of bytes
    copied, the smaller of the two lengths. *)
Definition copy (dst src : list byte) : list byte * nat :=
  let n := Nat.min (length dst) (length src) in
  (firstn n src ++ skipn n dst, n).

(** Lines 59-67, the generation of one block: the expander is reset and fed
    [prev], [info] and the counter byte; the digest becomes [prev] and
    [buf]; the counter is incremented as a [byte]. *)
Definition gen_block (f : hkdf) : hkdf :=
  let e := Reset (expander f) in
  let e := Write e (prev f) in
  let e := Write e (info f) in
  let e := Write e [counter f] in
  let prev' := Sum e (firstn 0 (prev f)) in
  let counter' := byte_add (counter f) x01 in
  mk_hkdf e (size f) (info f) counter' prev' prev'.

(** Lines 58-70, [for len(p) > 0].  [p] is the part of the caller's buffer
    still to fill, [filled] the part before it, [n] the count of the last
    [copy].  The loop is run for at most [fuel] iterations; [None] means
    that it did not end within them. *)
Fixpoint fill (fuel : nat) (f : hkdf) (filled p : list byte) (n : nat)
  : option (hkdf * list byte * nat) :=
  match p with
  | [] => Some (f, filled, n)
  | _ :: _ =>
      match fuel with
      | O => None
      | S fuel' =>
          let f := gen_block f in
          let '(p, n) := copy p (buf f) in
          fill fuel' f (filled ++ firstn n p) (skipn n p) n
      end
  end.

Definition errEntropyLimit : error := "hkdf: entropy limit reached"%string.

(** What a call of [Read] leaves behind: the two results, the reader and
    the contents of the caller's buffer. *)
Record outcome := mk_outcome {
  ret_n : Z;
  ret_err : option error;
  after : hkdf;
  p_after : list byte
}.

(** [remains] of line 49; [255-f.counter+1] is evaluated on bytes. *)
Definition remains (f : hkdf) : Z :=
  int_add (len (buf f))
          (int_mul (Z_of_byte (byte_add (byte_sub xff (counter f)) x01)) (size f)).

(** [func (f *hkdf) Read(p []byte) (int, error)].  The loop copies at least
    one byte per iteration unless digests are empty, so [length p]
    iterations are allowed for. *)
Definition Read (f : hkdf) (p : list byte) : option outcome :=
  let need := len p in
  if remains f <? need then
    Some (mk_outcome 0 (Some errEntropyLimit) f p)
  else
    let '(p1, n) := copy p (buf f) in
    match fill (length p) f (firstn n p1) (skipn n p1) n with
    | None => None
    | Some (f, filled, n) =>
        let f := set_buf f (skipn n (buf f)) in
        Some (mk_outcome need None f filled)
    end.

Definition Expand (pseudorandomKey info : list byte) : hkdf :=
  let expander := hmac_New pseudorandomKey in
  mk_hkdf expander (hmac_Size expander) info x01 [] [].

Definition New (secret : list byte) (salt : option (list byte)) (info : list byte) : hkdf :=
  let prk := Extract secret salt in
  Expand prk info.

End HKDF.

(** ** Notions the properties are stated with *)

Section Stream.

Context {H : HashFn}.

(** The bytes a call hands to its caller: [p[:n]]. *)
Definition bytes_read (o : outcome) : list byte :=
  firstn (Z.to_nat (ret_n o)) (p_after o).

(** The number of times the loop of [fill] runs its body. *)
Fixpoint fill_iterations (fuel : nat) (f : hkdf) (p : list byte) : nat :=
  match p with
  | [] => O
  | _ :: _ =>
      match fuel with
      | O => O
      | S fuel' =>
          let f := gen_block f in
          let '(p, n) := copy p (buf f) in
          S (fill_iterations fuel' f (skipn n p))
      end
  end.

(** The number of blocks a call [Read(p)] generates in state [f]; the
    [i]-th of them is generated in state [Nat.iter i gen_block f]. *)
Definition Read_blocks (f : hkdf) (p : list byte) : nat :=
  if remains f <? len p then O
  else
    let '(p1, n) := copy p (buf f) in
    fill_iterations (length p) f (skipn n p1).

(** A sequence of calls on one reader. *)
Fixpoint reads (f : hkdf) (ps : list (list byte)) : option (list outcome) :=
  match ps with
  | [] => Some []
  | p :: ps =>
      match Read f p with
      | None => None
      | Some o =>
          match reads (after o) ps with
          | None => None
          | Some os => Some (o :: os)
          end
      end
  end.

(** The sum of the counts the calls returned. *)
Definition total_returned (os : list outcome) : Z :=
  fold_right (fun o a => ret_n o + a) 0 os.

Variables prk info0 : list byte.

(** [reachable t k f]: [f] is the reader [Expand(hash, prk, info0)] after
    some calls of [Read] that returned [t] bytes in total and generated [k]
    blocks. *)
Inductive reachable : Z -> nat -> hkdf -> Prop :=
| reach_Expand : reachable 0 O (Expand prk info0)
| reach_Read : forall t k f p o,
    reachable t k f ->
    Read f p = Some o ->
    reachable (t + ret_n o) (k + Read_blocks f p) (after o).

(** RFC 5869, section 2.3: [T(0)] is empty and
    [T(i) = HMAC(PRK, T(i-1) | info | i)]. *)
Fixpoint T (i : nat) : list byte :=
  match i with
  | O => []
  | S j => hmac_sum prk (T j ++ info0 ++ [byte_of_Z (Z.of_nat i)])
  end.

(** [T(i+1) | ... | T(i+n)] *)
Fixpoint blocks (i n : nat) : list byte :=
  match n with
  | O => []
  | S m => T (S i) ++ blocks (S i) m
  end.

(** The whole output keying material, [T(1) | ... | T(255)]. *)
Definition okm : list byte := blocks 0 255.

(** The reader has generated [k] blocks. *)
Definition at_block (k : nat) (f : hkdf) : Prop :=
  hkey (expander f) = prk /\
  size f = Z.of_nat Size /\
  info f = info0 /\
  counter f = byte_of_Z (Z.of_nat k + 1) /\
  prev f = T k.

(** The reader has generated [k] blocks and returned [t] bytes. *)
Definition Inv (t k : nat) (f : hkdf) : Prop :=
  (k <= 255)%nat /\
  at_block k f /\
  (t <= k * Size)%nat /\
  (k = O \/ ((k - 1) * Size < t)%nat) /\
  buf f = skipn t (blocks 0 k).

(** The reader that a sequence of calls, with outcomes [os], leaves. *)
Fixpoint last_state (f : hkdf) (os : list outcome) : hkdf :=
  match os with
  | [] => f
  | o :: os => last_state (after o) os
  end.

(** What the expander was fed for the [k]-th block: nothing before the first
    block, then [T(k-1) | info | k]. *)
Definition last_input (k : nat) : list byte :=
  match k with
  | O => []
  | S j => T j ++ info0 ++ [byte_of_Z (Z.of_nat j + 1)]
  end.

End Stream.

(** ** A small hash to run the code on

    Two-byte digests: the sum of the key and message bytes and the length of
    the message, both modulo 256. *)
Module Toy.

Definition byte_sum (l : list byte) : Z := fold_right (fun b a => Z_of_byte b + a) 0 l.

Definition digest (key msg : list byte) : list byte :=
  [byte_of_Z (byte_sum key + byte_sum msg); byte_of_Z (len msg)].

Definition hash : HashFn :=
  Build_HashFn 2 digest (fun _ _ => eq_refl) ltac:(vm_compute; discriminate).

Definition fresh : hkdf := @Expand hash [x01] [x02].

(** [fresh] after one byte was read from it. *)
Definition after_one : hkdf :=
  mk_hkdf (mk_hmac [x01] [x02; x01]) 2 [x02] x02 [x04; x02] [x02].

(** [fresh] after its 510 bytes were read from it. *)
Definition drained_outcome : outcome :=
  match @Read hash fresh (repeat x00 510) with
  | Some o => o
  | None => mk_outcome 0 None fresh []
  end.

(** The reader that [Read(p)] leaves. *)
Definition read_state (f : hkdf) (p : list byte) : hkdf :=
  match @Read hash f p with
  | Some o => after o
  | None => f
  end.

End Toy.

(** ** Facts about the machine arithmetic *)

Lemma Z_of_byte_range : forall b, 0 <= Z_of_byte b <= 255.
Proof.
  intros b. unfold Z_of_byte.
  pose proof (Byte.to_N_bounded b) as Hb. lia.
Qed.

Lemma Z_of_byte_of_Z : forall z, Z_of_byte (byte_of_Z z) = z mod 256.
Proof.
  intros z. unfold Z_of_byte, byte_of_Z.
  pose proof (Z.mod_pos_bound z 256 ltac:(lia)) as Hz.
  destruct (Byte.of_N (Z.to_N (z mod 256))) as [b|] eqn:E.
  - apply Byte.to_of_N in E. rewrite E. lia.
  - apply Byte.of_N_None_iff in E. lia.
Qed.

Lemma byte_of_Z_of_byte : forall b, byte_of_Z (Z_of_byte b) = b.
Proof.
  intros b. unfold byte_of_Z.
  pose proof (Z_of_byte_range b) as Hb.
  rewrite Z.mod_small by lia.
  unfold Z_of_byte. rewrite N2Z.id, Byte.of_to_N. reflexivity.
Qed.

Lemma byte_of_Z_mod : forall z, byte_of_Z (z mod 256) = byte_of_Z z.
Proof.
  intros z. unfold byte_of_Z. rewrite Z.mod_mod by lia. reflexivity.
Qed.

Lemma wrap_int_small : forall z, - 2 ^ 63 <= z <= max_int -> wrap_int z = z.
Proof.
  intros z Hz. unfold wrap_int, max_int in *.
  rewrite Z.mod_small; lia.
Qed.

(** The byte expression [255-c+1] is [256 - c] reduced modulo 256. *)
Lemma capacity_byte : forall c,
  Z_of_byte (byte_add (byte_sub xff c) x01) = (256 - Z_of_byte c) mod 256.
Proof.
  intros c. unfold byte_add, byte_sub.
  rewrite !Z_of_byte_of_Z.
  change (Z_of_byte xff) with 255. change (Z_of_byte x01) with 1.
  rewrite Z.add_mod_idemp_l by lia. f_equal. lia.
Qed.

(** ** The blocks of RFC 5869 *)

Section Blocks.

Context {H : HashFn}.
Variables prk info0 : list byte.

Lemma T_succ : forall k,
  T prk info0 (S k)
  = hmac_sum prk (T prk info0 k ++ info0 ++ [byte_of_Z (Z.of_nat k + 1)]).
Proof.
  intros k. cbn [T]. rewrite Nat2Z.inj_succ. reflexivity.
Qed.

Lemma T_length : forall k, length (T prk info0 (S k)) = Size.
Proof. intros k. simpl. apply hmac_sum_length. Qed.

Lemma blocks_length : forall n i, length (blocks prk info0 i n) = (n * Size)%nat.
Proof.
  induction n as [|n IH]; intros i; simpl.
  - reflexivity.
  - rewrite length_app, hmac_sum_length, IH. reflexivity.
Qed.

Lemma blocks_app : forall n m i,
  blocks prk info0 i (n + m) = blocks prk info0 i n ++ blocks prk info0 (i + n) m.
Proof.
  induction n as [|n IH]; intros m i.
  - simpl. rewrite Nat.add_0_r. reflexivity.
  - change (S n + m)%nat with (S (n + m)).
    cbn [blocks]. rewrite IH, <- app_assoc.
    replace (S i + n)%nat with (i + S n)%nat by lia. reflexivity.
Qed.

Lemma blocks_snoc : forall k,
  blocks prk info0 0 (S k) = blocks prk info0 0 k ++ T prk info0 (S k).
Proof.
  intros k. replace (S k) with (k + 1)%nat at 1 by lia.
  rewrite blocks_app. cbn [blocks Nat.add]. rewrite app_nil_r. reflexivity.
Qed.

(** What is left of the output after [k] blocks. *)
Lemma okm_split : forall k, (k <= 255)%nat ->
  okm prk info0 = blocks prk info0 0 k ++ blocks prk info0 k (255 - k).
Proof.
  intros k Hk. unfold okm.
  replace 255%nat with (k + (255 - k))%nat at 1 by lia.
  apply blocks_app.
Qed.

Lemma blocks_step : forall k, (k < 255)%nat ->
  blocks prk info0 k (255 - k) = T prk info0 (S k) ++ blocks prk info0 (S k) (255 - S k).
Proof.
  intros k Hk. replace (255 - k)%nat with (S (255 - S k)) by lia. reflexivity.
Qed.

End Blocks.

(** ** One block, and the capacity check *)

Section Reader.

Context {H : HashFn}.
Variables prk info0 : list byte.

Local Abbreviation T := (T prk info0).
Local Abbreviation blocks := (blocks prk info0).
Local Abbreviation okm := (okm prk info0).
Local Abbreviation at_block := (at_block prk info0).
Local Abbreviation Inv := (Inv prk info0).
Local Abbreviation reachable := (reachable prk info0).

Lemma counter_at_block : forall k f, at_block k f ->
  Z_of_byte (counter f) = (Z.of_nat k + 1) mod 256.
Proof.
  intros k f (_ & _ & _ & Hc & _). rewrite Hc. apply Z_of_byte_of_Z.
Qed.

Lemma gen_block_at_block : forall k f, at_block k f ->
  at_block (S k) (gen_block f) /\ buf (gen_block f) = T (S k).
Proof.
  intros k f (Hkey & Hsize & Hinfo & Hc & Hprev).
  assert (Hd : prev (gen_block f) = T (S k)).
  { rewrite T_succ.
    unfold gen_block, Sum, Write, Reset. cbn [prev hkey hmsg firstn app].
    rewrite Hkey, Hprev, Hinfo, Hc, <- app_assoc. reflexivity. }
  split; [|exact Hd].
  repeat split; try assumption.
  cbn. unfold byte_add. rewrite Hc, Z_of_byte_of_Z.
  change (Z_of_byte x01) with 1.
  rewrite <- byte_of_Z_mod, Z.add_mod_idemp_l, byte_of_Z_mod by lia.
  f_equal. lia.
Qed.

Lemma Size_bound : 0 <= 256 * Z.of_nat Size <= max_int.
Proof. pose proof Size_fits_int. lia. Qed.

Lemma remains_at_block : forall k f,
  at_block k f -> (k <= 255)%nat -> (length (buf f) <= Size)%nat ->
  remains f = len (buf f) + (255 - Z.of_nat k) * Z.of_nat Size.
Proof.
  intros k f Hat Hk Hbuf.
  pose proof (counter_at_block _ _ Hat) as Hc.
  destruct Hat as (_ & Hsize & _).
  pose proof Size_bound as HS.
  unfold remains, int_add, int_mul, len.
  rewrite capacity_byte, Hc, Hsize.
  assert (E : (256 - (Z.of_nat k + 1) mod 256) mod 256 = 255 - Z.of_nat k).
  { destruct (Nat.eq_dec k 255) as [->|Hne].
    - reflexivity.
    - rewrite (Z.mod_small (Z.of_nat k + 1)) by lia.
      rewrite Z.mod_small; lia. }
  rewrite E.
  rewrite (wrap_int_small ((255 - Z.of_nat k) * Z.of_nat Size)) by nia.
  rewrite wrap_int_small by nia.
  reflexivity.
Qed.

(** ** The loop *)

Lemma firstn_copy : forall dst src : list byte,
  firstn (snd (copy dst src)) (fst (copy dst src))
  = firstn (Nat.min (length dst) (length src)) src.
Proof.
  intros dst src. unfold copy. cbn [fst snd].
  set (n := Nat.min (length dst) (length src)).
  assert (Hn : length (firstn n src) = n) by (rewrite length_firstn; lia).
  rewrite firstn_app, Hn, Nat.sub_diag, firstn_O, app_nil_r.
  rewrite firstn_firstn, Nat.min_id. reflexivity.
Qed.

Lemma skipn_copy : forall dst src : list byte,
  skipn (snd (copy dst src)) (fst (copy dst src))
  = skipn (Nat.min (length dst) (length src)) dst.
Proof.
  intros dst src. unfold copy. cbn [fst snd].
  set (n := Nat.min (length dst) (length src)).
  assert (Hn : length (firstn n src) = n) by (rewrite length_firstn; lia).
  rewrite skipn_app, Hn, Nat.sub_diag.
  rewrite (skipn_all2 (firstn n src)) by lia. reflexivity.
Qed.

(** The body of the loop, with the two slices of [p] it leaves. *)
Lemma fill_step : forall fuel f filled b p n,
  fill (S fuel) f filled (b :: p) n =
  let g := gen_block f in
  let m := Nat.min (length (b :: p)) (length (buf g)) in
  fill fuel g (filled ++ firstn m (buf g)) (skipn m (b :: p)) m.
Proof.
  intros. cbn [fill].
  pose proof (firstn_copy (b :: p) (buf (gen_block f))) as Hf.
  pose proof (skipn_copy (b :: p) (buf (gen_block f))) as Hs.
  destruct (copy (b :: p) (buf (gen_block f))) as [p1 n1] eqn:E.
  cbn [fst snd] in Hf, Hs. rewrite Hf, Hs.
  unfold copy in E. injection E as _ <-. reflexivity.
Qed.

Lemma fill_iterations_step : forall fuel f b p,
  fill_iterations (S fuel) f (b :: p) =
  let g := gen_block f in
  let m := Nat.min (length (b :: p)) (length (buf g)) in
  S (fill_iterations fuel g (skipn m (b :: p))).
Proof.
  intros. cbn [fill_iterations].
  pose proof (skipn_copy (b :: p) (buf (gen_block f))) as Hs.
  destruct (copy (b :: p) (buf (gen_block f))) as [p1 n1] eqn:E.
  cbn [fst snd] in Hs. rewrite Hs. reflexivity.
Qed.

(** The case of an empty window, where the loop returns at once. *)
Local Ltac loop_not_entered :=
  repeat match goal with
         | |- _ /\ _ => split
         | |- _ = _ => reflexivity
         | |- _ -> _ => intro
         | _ => solve [assumption | auto | congruence]
         end.

(** With [k] blocks generated and room for the request, the loop ends
    within its fuel, writes the next bytes of the output, and stops on the
    block that holds the last of them. *)
Lemma fill_spec : forall fuel f filled p n k,
  at_block k f -> (k <= 255)%nat ->
  (length p <= (255 - k) * Size)%nat ->
  (length p <= fuel)%nat ->
  exists f' n',
    fill fuel f filled p n
    = Some (f', filled ++ firstn (length p) (blocks k (255 - k)), n') /\
    f' = Nat.iter (fill_iterations fuel f p) gen_block f /\
    (k + fill_iterations fuel f p <= 255)%nat /\
    at_block (k + fill_iterations fuel f p) f' /\
    (p = [] -> n' = n /\ fill_iterations fuel f p = O) /\
    (p <> [] ->
       buf f' = T (k + fill_iterations fuel f p) /\
       (1 <= n' <= Size)%nat /\
       (1 <= fill_iterations fuel f p)%nat /\
       ((k + fill_iterations fuel f p - 1) * Size + n' = k * Size + length p)%nat).
Proof.
  induction fuel as [|fuel IH]; intros f filled p n k Hat Hk Hroom Hfuel.
  - destruct p as [|b p]; [|cbn in Hfuel; lia].
    exists f, n. cbn. rewrite app_nil_r, Nat.add_0_r. loop_not_entered.
  - destruct p as [|b p].
    + exists f, n. cbn. rewrite app_nil_r, Nat.add_0_r. loop_not_entered.
    + rewrite fill_step, fill_iterations_step. cbv zeta.
      destruct (gen_block_at_block _ _ Hat) as [Hat1 Hbuf1].
      rewrite Hbuf1, T_length.
      set (lp := length (b :: p)) in *.
      assert (Hlp : (1 <= lp)%nat) by (subst lp; cbn; lia).
      assert (Hk1 : (k < 255)%nat).
      { destruct (Nat.eq_dec k 255); [subst; cbn in Hroom|]; lia. }
      assert (Hsz : (1 <= Size)%nat).
      { destruct (Nat.eq_dec Size 0) as [E|E];
          [rewrite E, Nat.mul_0_r in Hroom|]; lia. }
      assert (Hmul : ((255 - k) * Size = Size + (255 - S k) * Size)%nat).
      { replace (255 - k)%nat with (S (255 - S k)) by lia. reflexivity. }
      rewrite Hmul in Hroom. clear Hmul.
      set (m := Nat.min lp Size).
      assert (Hlen' : length (skipn m (b :: p)) = (lp - m)%nat)
        by apply length_skipn.
      assert (Hroom' : (length (skipn m (b :: p)) <= (255 - S k) * Size)%nat).
      { rewrite Hlen'. generalize dependent ((255 - S k) * Size)%nat.
        intros; lia. }
      destruct (IH (gen_block f) (filled ++ firstn m (T (S k)))
                  (skipn m (b :: p)) m (S k)
                  Hat1 ltac:(lia) Hroom' ltac:(rewrite Hlen'; lia))
        as (f' & n' & Hfill & Hiter & Hle & Hat' & Hnil & Hcons).
      set (j := fill_iterations fuel (gen_block f) (skipn m (b :: p))) in *.
      exists f', n'.
      replace (k + S j)%nat with (S k + j)%nat by lia.
      split; [|split; [|split; [|split; [|split]]]].
      * rewrite Hfill, Hlen', <- app_assoc.
        replace (firstn lp (blocks k (255 - k)))
          with (firstn m (T (S k)) ++ firstn (lp - m) (blocks (S k) (255 - S k)));
          [reflexivity|].
        rewrite (blocks_step prk info0 k Hk1).
        rewrite firstn_app, T_length.
        destruct (Nat.le_gt_cases lp Size) as [Hc|Hc].
        -- replace m with lp by lia.
           replace (lp - lp)%nat with O by lia.
           replace (lp - Size)%nat with O by lia. reflexivity.
        -- replace m with Size by lia.
           rewrite (firstn_all2 (n := Size) (T (S k))) by (rewrite T_length; lia).
           rewrite (firstn_all2 (n := lp) (T (S k))) by (rewrite T_length; lia).
           reflexivity.
      * rewrite Hiter. symmetry. apply Nat.iter_succ_r.
      * exact Hle.
      * exact Hat'.
      * discriminate.
      * intros _.
        destruct (skipn m (b :: p)) as [|b' p'] eqn:Hrest.
        -- destruct (Hnil eq_refl) as [-> Hj]. fold j in Hj. rewrite Hj in *.
           cbn in Hiter. subst f'. cbn [length] in Hlen'.
           rewrite Nat.add_0_r. repeat split; try assumption; try lia.
        -- destruct (Hcons ltac:(discriminate)) as (Hb & Hn' & Hj & Hsum).
           repeat split; try assumption; try lia.
           rewrite Hsum, Hlen'.
           assert (Hm : m = Size) by (cbn [length] in Hlen'; lia).
           rewrite Hm. cbn [Nat.mul]. lia.
Qed.

(** ** One call of [Read] *)

Lemma at_block_set_buf : forall k f b, at_block k f -> at_block k (set_buf f b).
Proof. intros k f b Hat. exact Hat. Qed.

Lemma Inv_buf_length : forall t k f, Inv t k f ->
  (t + length (buf f) = k * Size)%nat /\ (length (buf f) <= Size)%nat.
Proof.
  intros t k f (Hk & Hat & Ht & Hlast & Hbuf).
  rewrite Hbuf, length_skipn, blocks_length.
  split; [lia|].
  destruct Hlast as [->|Hlast]; [cbn; lia|].
  destruct k as [|q]; [cbn in *; lia|].
  cbn [Nat.sub Nat.mul] in *. rewrite Nat.sub_0_r in Hlast. lia.
Qed.

Lemma Inv_remains : forall t k f, Inv t k f ->
  remains f = 255 * Z.of_nat Size - Z.of_nat t.
Proof.
  intros t k f HI.
  destruct (Inv_buf_length _ _ _ HI) as [Hlen Hle].
  destruct HI as (Hk & Hat & _).
  rewrite (remains_at_block k f Hat Hk Hle).
  unfold len. apply (f_equal Z.of_nat) in Hlen.
  rewrite Nat2Z.inj_add, Nat2Z.inj_mul in Hlen. lia.
Qed.

Lemma Inv_total : forall t k f, Inv t k f -> (t <= 255 * Size)%nat.
Proof.
  intros t k f (Hk & _ & Hle & _).
  apply (Nat.le_trans _ _ _ Hle), Nat.mul_le_mono_r, Hk.
Qed.

(** The buffered bytes and the blocks still to come are the rest of the
    output. *)
Lemma Inv_rest : forall t k f, Inv t k f ->
  skipn t okm = buf f ++ blocks k (255 - k).
Proof.
  intros t k f (Hk & _ & Ht & _ & Hbuf).
  rewrite (okm_split prk info0 k Hk), skipn_app, blocks_length, <- Hbuf.
  replace (t - k * Size)%nat with O by lia. reflexivity.
Qed.

(** [Read] past the check. *)
Lemma Read_pass : forall f p, (remains f <? len p) = false ->
  Read f p =
  let m := Nat.min (length p) (length (buf f)) in
  match fill (length p) f (firstn m (buf f)) (skipn m p) m with
  | None => None
  | Some (g, filled, n) =>
      Some (mk_outcome (len p) None (set_buf g (skipn n (buf g))) filled)
  end.
Proof.
  intros f p Hck. unfold Read. rewrite Hck.
  pose proof (firstn_copy p (buf f)) as Hf.
  pose proof (skipn_copy p (buf f)) as Hs.
  destruct (copy p (buf f)) as [p1 n1] eqn:E.
  cbn [fst snd] in Hf, Hs. rewrite Hf, Hs.
  unfold copy in E. injection E as _ <-. reflexivity.
Qed.

Lemma Read_blocks_pass : forall f p, (remains f <? len p) = false ->
  Read_blocks f p =
  fill_iterations (length p) f (skipn (Nat.min (length p) (length (buf f))) p).
Proof.
  intros f p Hck. unfold Read_blocks. rewrite Hck.
  pose proof (skipn_copy p (buf f)) as Hs.
  destruct (copy p (buf f)) as [p1 n1] eqn:E.
  cbn [fst snd] in Hs. rewrite Hs. reflexivity.
Qed.

(** A request beyond what is left is refused and changes nothing. *)
Lemma Read_err : forall t k f p, Inv t k f ->
  (255 * Size < t + length p)%nat ->
  Read f p = Some (mk_outcome 0 (Some errEntropyLimit) f p) /\
  Read_blocks f p = O.
Proof.
  intros t k f p HI Hover.
  pose proof (Inv_remains _ _ _ HI) as Hrem.
  assert (Hck : (remains f <? len p) = true).
  { apply Z.ltb_lt. rewrite Hrem. unfold len. lia. }
  unfold Read, Read_blocks. rewrite Hck. split; reflexivity.
Qed.

(** A request within what is left is served with the next bytes of the
    output, and the invariant holds of the reader it leaves. *)
Lemma Read_ok : forall t k f p, Inv t k f ->
  (t + length p <= 255 * Size)%nat ->
  exists f',
    Read f p = Some (mk_outcome (len p) None f' (firstn (length p) (skipn t okm))) /\
    Inv (t + length p) (k + Read_blocks f p) f' /\
    f' = set_buf (Nat.iter (Read_blocks f p) gen_block f) (buf f').
Proof.
  intros t k f p HI Hroom.
  pose proof (Inv_remains _ _ _ HI) as Hrem.
  destruct (Inv_buf_length _ _ _ HI) as [Hlen Hle].
  pose proof (Inv_rest _ _ _ HI) as Hrest.
  assert (Hck : (remains f <? len p) = false).
  { apply Z.ltb_ge. rewrite Hrem. unfold len. lia. }
  rewrite (Read_pass f p Hck), (Read_blocks_pass f p Hck). cbv zeta.
  destruct HI as (Hk & Hat & Ht & Hlast & Hbuf).
  set (lb := length (buf f)) in *. set (lp := length p) in *.
  set (m := Nat.min lp lb).
  assert (Hsplit : (255 * Size = k * Size + (255 - k) * Size)%nat).
  { rewrite <- Nat.mul_add_distr_r. f_equal. lia. }
  assert (Hwin : length (skipn m p) = (lp - m)%nat) by apply length_skipn.
  assert (Hwroom : (length (skipn m p) <= (255 - k) * Size)%nat).
  { rewrite Hwin. generalize dependent ((255 - k) * Size)%nat.
    generalize dependent (k * Size)%nat. intros; lia. }
  destruct (fill_spec lp f (firstn m (buf f)) (skipn m p) m k Hat Hk Hwroom
              ltac:(rewrite Hwin; lia))
    as (g & n & Hfill & Hiter & Hkj & Hatg & Hnil & Hcons).
  set (j := fill_iterations lp f (skipn m p)) in *.
  rewrite Hfill. eexists. split; [|split].
  - do 2 f_equal. rewrite Hrest, firstn_app, Hwin. fold lb.
    destruct (Nat.le_gt_cases lp lb) as [Hc|Hc].
    + replace m with lp by lia.
      replace (lp - lp)%nat with O by lia.
      replace (lp - lb)%nat with O by lia. reflexivity.
    + replace m with lb by lia.
      rewrite (firstn_all2 (n := lb) (buf f)) by (fold lb; lia).
      rewrite (firstn_all2 (n := lp) (buf f)) by (fold lb; lia).
      reflexivity.
  - split; [exact Hkj|]. split; [apply at_block_set_buf; exact Hatg|].
    cbn [buf set_buf].
    destruct (skipn m p) as [|b w] eqn:Hw.
    + destruct (Hnil eq_refl) as [-> Hj]. fold j in Hj. rewrite Hj in *.
      cbn in Hiter. subst g. rewrite Nat.add_0_r.
      cbn [length] in Hwin.
      assert (Hm : m = lp) by lia. rewrite Hm.
      split; [lia|]. split; [destruct Hlast; [left; assumption | right; lia]|].
      rewrite Hbuf, skipn_skipn. f_equal. lia.
    + destruct (Hcons ltac:(discriminate)) as (Hb & Hn & Hj & Hsum).
      assert (Hm : m = lb) by (cbn [length] in Hwin; lia).
      rewrite Hwin, Hm in Hsum.
      destruct (k + j)%nat as [|q] eqn:Hq; [lia|].
      cbn [Nat.sub Nat.mul] in *. rewrite Nat.sub_0_r in Hsum.
      split; [lia|]. split; [right; lia|].
      rewrite Hb, blocks_snoc, skipn_app, blocks_length.
      rewrite (skipn_all2 (blocks 0 q)) by (rewrite blocks_length; lia).
      cbn [app]. f_equal. lia.
  - cbn [buf set_buf]. rewrite Hiter. reflexivity.
Qed.

(** ** Reachable readers *)

Lemma Inv_Expand : Inv 0 0 (Expand prk info0).
Proof.
  unfold Inv, at_block, Expand, hmac_New, hmac_Size. cbn.
  repeat split; try reflexivity; try lia.
Qed.

Lemma reachable_Inv : forall t k f, reachable t k f ->
  0 <= t /\ Inv (Z.to_nat t) k f.
Proof.
  induction 1 as [|t k f p o Hr [Ht HI] HR].
  - split; [lia | exact Inv_Expand].
  - destruct (Nat.le_gt_cases (Z.to_nat t + length p) (255 * Size)) as [Hc|Hc].
    + destruct (Read_ok _ _ _ p HI Hc) as (f' & HR' & HI' & _).
      rewrite HR' in HR. injection HR as <-. cbn [ret_n after].
      unfold len. split; [lia|].
      replace (Z.to_nat (t + Z.of_nat (length p)))
        with (Z.to_nat t + length p)%nat by lia.
      exact HI'.
    + destruct (Read_err _ _ _ p HI Hc) as [HR' Hb].
      rewrite HR' in HR. injection HR as <-. cbn [ret_n after].
      rewrite Hb, Z.add_0_r, Nat.add_0_r. split; assumption.
Qed.

Lemma at_block_iter : forall i k f, at_block k f ->
  at_block (k + i) (Nat.iter i gen_block f).
Proof.
  induction i as [|i IH]; intros k f Hat.
  - rewrite Nat.add_0_r. exact Hat.
  - replace (k + S i)%nat with (S (k + i)) by lia.
    cbn [Nat.iter nat_rect]. apply gen_block_at_block, IH, Hat.
Qed.

(** The blocks of one call stay within the 255 of the construction. *)
Lemma Read_blocks_bound : forall t k f p, Inv t k f ->
  (k + Read_blocks f p <= 255)%nat.
Proof.
  intros t k f p HI.
  destruct (Nat.le_gt_cases (t + length p) (255 * Size)) as [Hc|Hc].
  - destruct (Read_ok _ _ _ p HI Hc) as (f' & _ & (Hk & _) & _). exact Hk.
  - destruct (Read_err _ _ _ p HI Hc) as [_ ->]. destruct HI as (Hk & _). lia.
Qed.

(** The [i]-th block of a call is generated with [k + i] blocks behind it,
    fewer than 255. *)
Lemma generated_at_block : forall t k f p i, reachable t k f ->
  (i < Read_blocks f p)%nat ->
  (k + i < 255)%nat /\ at_block (k + i) (Nat.iter i gen_block f).
Proof.
  intros t k f p i Hr Hi.
  destruct (reachable_Inv _ _ _ Hr) as [Ht HI].
  pose proof (Read_blocks_bound _ _ _ p HI) as Hb.
  split; [lia|].
  apply at_block_iter. destruct HI as (_ & Hat & _). exact Hat.
Qed.

Lemma firstn_add_skipn : forall (A : Type) (a b : nat) (l : list A),
  firstn (a + b) l = firstn a l ++ firstn b (skipn a l).
Proof.
  induction a as [|a IH]; intros b l.
  - reflexivity.
  - destruct l as [|x l]; cbn.
    + rewrite firstn_nil. reflexivity.
    + rewrite IH. reflexivity.
Qed.

Lemma okm_length : length okm = (255 * Size)%nat.
Proof. apply blocks_length. Qed.

End Reader.

(** ** The properties of the specification *)

Section Properties.

Context {H : HashFn}.
Variables prk info0 : list byte.

Local Abbreviation T := (T prk info0).
Local Abbreviation okm := (okm prk info0).
Local Abbreviation reachable := (reachable prk info0).

(** C1.  In a reader reached from [Expand(hash, prk, info)], every block a
    call of [Read] generates (the [i]-th one being generated in state
    [g = gen_block^i f]) is the HMAC keyed by [prk] of
    [previous_block | info | counter_byte]; the counter byte is between 1
    and 255 (it is the number of the block, which is the block [T] of
    RFC 5869); the digest becomes [prev] (and [buf]); and the stored counter
    is incremented by one as a byte.  The call itself ends in the state
    reached by these blocks, up to what is left in [buf]. *)
Theorem Read_block_chain : forall t k f p i,
  reachable t k f -> (i < Read_blocks f p)%nat ->
  let g := Nat.iter i gen_block f in
  hkey (expander g) = prk /\
  info g = info0 /\
  1 <= Z_of_byte (counter g) <= 255 /\
  Z_of_byte (counter g) = Z.of_nat (k + i) + 1 /\
  prev (gen_block g) = hmac_sum prk (prev g ++ info0 ++ [counter g]) /\
  prev (gen_block g) = T (S (k + i)) /\
  buf (gen_block g) = prev (gen_block g) /\
  Z_of_byte (counter (gen_block g)) = (Z_of_byte (counter g) + 1) mod 256 /\
  exists o, Read f p = Some o /\
    after o = set_buf (Nat.iter (Read_blocks f p) gen_block f) (buf (after o)).
Proof.
  intros t k f p i Hr Hi g.
  destruct (reachable_Inv _ _ _ _ _ Hr) as [Ht HI].
  destruct (generated_at_block _ _ _ _ _ p i Hr Hi) as [Hb Hat]. fold g in Hat.
  pose proof (counter_at_block _ _ _ _ Hat) as Hc.
  rewrite Z.mod_small in Hc by lia.
  destruct (gen_block_at_block _ _ _ _ Hat) as [Hat' Hbuf'].
  destruct Hat as (Hkey & _ & Hinfo & _ & Hprev).
  destruct Hat' as (_ & _ & _ & _ & Hprev').
  split; [exact Hkey|]. split; [exact Hinfo|]. split; [lia|]. split; [exact Hc|].
  split; [rewrite Hprev', Hprev, T_succ, <- Hc, byte_of_Z_of_byte; reflexivity|].
  split; [exact Hprev'|]. split; [reflexivity|].
  split; [cbn [counter gen_block]; unfold byte_add; rewrite Z_of_byte_of_Z;
          reflexivity|].
  destruct (Nat.le_gt_cases (Z.to_nat t + length p) (255 * Size)) as [Hle|Hgt].
  - destruct (Read_ok _ _ _ _ _ p HI Hle) as (f' & HR & _ & Hf').
    eexists. split; [exact HR|]. exact Hf'.
  - destruct (Read_err _ _ _ _ _ p HI Hgt) as [_ H0]. lia.
Qed.

(** What a call returns in a reachable reader: either it is within what is
    left and is served from the output at position [t], or it is refused. *)
Lemma Read_reachable : forall t k f p, reachable t k f ->
  (len p <= 255 * Z.of_nat Size - t /\
   exists f', Read f p
              = Some (mk_outcome (len p) None f'
                        (firstn (length p) (skipn (Z.to_nat t) okm))) /\
              reachable (t + len p) (k + Read_blocks f p) f') \/
  (255 * Z.of_nat Size - t < len p /\
   Read f p = Some (mk_outcome 0 (Some errEntropyLimit) f p)).
Proof.
  intros t k f p Hr.
  destruct (reachable_Inv _ _ _ _ _ Hr) as [Ht HI].
  destruct (Nat.le_gt_cases (Z.to_nat t + length p) (255 * Size)) as [Hle|Hgt].
  - left. split; [unfold len; lia|].
    destruct (Read_ok _ _ _ _ _ p HI Hle) as (f' & HR & _ & _).
    exists f'. split; [exact HR|].
    exact (reach_Read prk info0 t k f p _ Hr HR).
  - right. split; [unfold len; lia|].
    apply (Read_err _ _ _ _ _ p HI Hgt).
Qed.

(** Any sequence of calls runs to its end, and what it returns stays within
    what was left. *)
Lemma reads_bounded : forall ps t k f, reachable t k f ->
  exists os, reads f ps = Some os /\
             0 <= total_returned os /\
             t + total_returned os <= 255 * Z.of_nat Size.
Proof.
  induction ps as [|p ps IH]; intros t k f Hr.
  - exists []. destruct (reachable_Inv _ _ _ _ _ Hr) as [Ht HI].
    pose proof (Inv_total _ _ _ _ _ HI) as Hle.
    split; [reflexivity|]. cbn [total_returned fold_right]. lia.
  - cbn [reads].
    destruct (Read_reachable _ _ _ p Hr) as [[Hfit (f' & HR & Hr')]|[Hover HR]];
      rewrite HR; cbn [after].
    + destruct (IH _ _ _ Hr') as (os & Hos & H0 & Hsum).
      rewrite Hos. eexists. split; [reflexivity|].
      cbn [total_returned fold_right ret_n]. fold (total_returned os).
      unfold len in *. lia.
    + destruct (IH _ _ _ Hr) as (os & Hos & H0 & Hsum).
      rewrite Hos. eexists. split; [reflexivity|].
      cbn [total_returned fold_right ret_n]. fold (total_returned os). lia.
Qed.

(** C2, as amended.  When [a + b] is at most [255 * Size], [Read] of [a]
    bytes followed by [Read] of [b] bytes on the reader returned by [Expand]
    both succeed, a single [Read] of [a + b] bytes on a reader returned by
    [Expand] with the same arguments succeeds, and the bytes of the first two
    calls, concatenated, are the bytes of the third. *)
Theorem Read_split_concat : forall pa pb pl : list byte,
  length pl = (length pa + length pb)%nat ->
  (length pl <= 255 * Size)%nat ->
  exists oa ob ol,
    Read (Expand prk info0) pa = Some oa /\
    Read (after oa) pb = Some ob /\
    Read (Expand prk info0) pl = Some ol /\
    ret_err oa = None /\ ret_err ob = None /\ ret_err ol = None /\
    ret_n oa = len pa /\ ret_n ob = len pb /\ ret_n ol = len pl /\
    bytes_read oa ++ bytes_read ob = bytes_read ol /\
    bytes_read ol = firstn (length pl) okm.
Proof.
  intros pa pb pl Hsplit Hroom.
  pose proof (reach_Expand prk info0) as Hr0.
  destruct (Read_reachable _ _ _ pa Hr0) as [[_ (fa & HRa & Hra)]|[Hover _]];
    [|unfold len in Hover; lia].
  destruct (Read_reachable _ _ _ pb Hra) as [[_ (fb & HRb & _)]|[Hover _]];
    [|unfold len in Hover; lia].
  destruct (Read_reachable _ _ _ pl Hr0) as [[_ (fl & HRl & _)]|[Hover _]];
    [|unfold len in Hover; lia].
  do 3 eexists.
  split; [exact HRa|]. split; [exact HRb|]. split; [exact HRl|].
  cbn [ret_err ret_n after]. do 6 (split; [reflexivity|]).
  unfold bytes_read, len. cbn [ret_n p_after]. rewrite !Nat2Z.id.
  replace (Z.to_nat (0 + Z.of_nat (length pa))) with (length pa) by lia.
  cbn [Z.to_nat skipn].
  rewrite !firstn_firstn, !Nat.min_id.
  split; [|reflexivity].
  rewrite Hsplit. symmetry. apply firstn_add_skipn.
Qed.

(** C3.  From the reader returned by [Expand], a [Read] into a buffer of
    [255 * Size] bytes returns that count and no error (and fills the buffer
    with the whole output), and a [Read] into a buffer of [255 * Size + 1]
    bytes returns the entropy-limit error. *)
Theorem Read_limit_boundary : forall p q : list byte,
  length p = (255 * Size)%nat ->
  length q = (255 * Size + 1)%nat ->
  (exists f', Read (Expand prk info0) p
              = Some (mk_outcome (255 * Z.of_nat Size) None f' okm)) /\
  Read (Expand prk info0) q
  = Some (mk_outcome 0 (Some errEntropyLimit) (Expand prk info0) q).
Proof.
  intros p q Hp Hq.
  pose proof (reach_Expand prk info0) as Hr0.
  split.
  - destruct (Read_reachable _ _ _ p Hr0) as [[_ (f' & HR & _)]|[Hover _]];
      [|unfold len in Hover; lia].
    exists f'. rewrite HR. unfold len. rewrite Hp. cbn [Z.to_nat skipn].
    rewrite firstn_all2 by (rewrite okm_length; lia).
    do 3 f_equal. lia.
  - destruct (Read_reachable _ _ _ q Hr0) as [[Hle _]|[_ HR]];
      [unfold len in Hle; lia | exact HR].
Qed.

(** C4.  After any calls of [Read] on a reader returned by [Expand], the
    total [t] of the counts returned is at most [255 * Size]; the next call
    returns, and it returns an error exactly when the request exceeds the
    [255 * Size - t] bytes that are left; the error is the entropy-limit
    one, with a count of zero, and otherwise the count is the length of the
    buffer.  Any further sequence of calls, of any sizes, runs to its end
    and returns at most what is left. *)
Theorem Read_total_bounded : forall t k f,
  reachable t k f ->
  0 <= t <= 255 * Z.of_nat Size /\
  (forall p, exists o,
    Read f p = Some o /\
    (ret_err o <> None <-> 255 * Z.of_nat Size - t < len p) /\
    (ret_err o <> None -> ret_err o = Some errEntropyLimit /\ ret_n o = 0) /\
    (ret_err o = None -> ret_n o = len p)) /\
  (forall ps, exists os,
    reads f ps = Some os /\
    0 <= total_returned os /\
    t + total_returned os <= 255 * Z.of_nat Size).
Proof.
  intros t k f Hr.
  destruct (reachable_Inv _ _ _ _ _ Hr) as [Ht HI].
  pose proof (Inv_total _ _ _ _ _ HI) as Hle.
  split; [|split].
  - lia.
  - intros p.
    destruct (Read_reachable _ _ _ p Hr) as [[Hfit (f' & HR & _)]|[Hover HR]];
      eexists; (split; [exact HR|]); cbn [ret_err ret_n].
    + split; [split; [congruence | lia]|]. split; [congruence | reflexivity].
    + split; [split; [intros _; exact Hover | discriminate]|].
      split; [split; reflexivity | discriminate].
  - intros ps. exact (reads_bounded ps t k f Hr).
Qed.

(** C5.  In any state of the reader, a call of [Read] that returns an
    error returns the entropy-limit error with a count of zero, and leaves
    the caller's buffer and every field of the reader as they were. *)
Theorem Read_error_no_effect : forall (f : hkdf) (p : list byte) (o : outcome),
  Read f p = Some o ->
  ret_err o <> None ->
  ret_err o = Some errEntropyLimit /\
  ret_n o = 0 /\
  p_after o = p /\
  after o = f.
Proof.
  intros f p o HR Herr. unfold Read in HR.
  destruct (remains f <? len p).
  - injection HR as <-. cbn. repeat split.
  - destruct (copy p (buf f)) as [p1 n].
    destruct (fill (length p) f (firstn n p1) (skipn n p1) n) as [[[g filled] m]|];
      [|discriminate].
    injection HR as <-. cbn in Herr. congruence.
Qed.

(** C8.  In every reachable reader, [Read] into a buffer of length zero
    returns a count of zero and no error, and leaves the reader, all its
    fields, as it was; it generates no block. *)
Theorem Read_zero_length : forall t k f (p : list byte),
  reachable t k f ->
  length p = O ->
  Read f p = Some (mk_outcome 0 None f p) /\
  Read_blocks f p = O.
Proof.
  intros t k f p Hr Hp.
  destruct p as [|b p]; [|discriminate].
  destruct (reachable_Inv _ _ _ _ _ Hr) as [Ht HI].
  pose proof (Inv_remains _ _ _ _ _ HI) as Hrem.
  pose proof (Inv_total _ _ _ _ _ HI) as Hle.
  assert (Hck : (remains f <? len (@nil byte)) = false).
  { apply Z.ltb_ge. rewrite Hrem. unfold len. cbn [length]. lia. }
  rewrite (Read_pass f [] Hck), (Read_blocks_pass f [] Hck).
  split; [|reflexivity].
  destruct f. reflexivity.
Qed.

(** C9.  In a reader that has generated [k] blocks and returned [t] bytes,
    [k] is at most 255 and the counter is [k + 1] as a byte: between 1 and
    255 while [k < 255], and 0 once the 255th block has been generated.  The
    byte expression [255-counter+1] is [255 - k], the capacity computed by
    [Read] does not overflow and is [255 * Size - t], the number of bytes
    that can still be returned.  With the counter at 0 the block term is 0
    and the capacity is the length of [buf].  No call generates a block with
    counter byte 0. *)
Theorem counter_capacity : forall t k f,
  reachable t k f ->
  (k <= 255)%nat /\
  Z_of_byte (counter f) = (Z.of_nat k + 1) mod 256 /\
  ((k < 255)%nat /\ 1 <= Z_of_byte (counter f) <= 255 \/
   k = 255%nat /\ counter f = x00) /\
  Z_of_byte (byte_add (byte_sub xff (counter f)) x01) = 255 - Z.of_nat k /\
  remains f
  = len (buf f) + Z_of_byte (byte_add (byte_sub xff (counter f)) x01) * Z.of_nat Size /\
  remains f = 255 * Z.of_nat Size - t /\
  (counter f = x00 ->
   Z_of_byte (byte_add (byte_sub xff (counter f)) x01) = 0 /\
   remains f = len (buf f)) /\
  (forall p i, (i < Read_blocks f p)%nat ->
               counter (Nat.iter i gen_block f) <> x00).
Proof.
  intros t k f Hr.
  destruct (reachable_Inv _ _ _ _ _ Hr) as [Ht HI].
  pose proof (Inv_remains _ _ _ _ _ HI) as Hrem.
  destruct (Inv_buf_length _ _ _ _ _ HI) as [Hlen Hle].
  assert (Hk : (k <= 255)%nat) by (destruct HI as (Hk & _); exact Hk).
  assert (Hat : at_block prk info0 k f) by (destruct HI as (_ & Hat & _); exact Hat).
  pose proof (counter_at_block _ _ _ _ Hat) as Hc.
  pose proof (remains_at_block _ _ _ _ Hat Hk Hle) as Hrem'.
  assert (Hcases : (k < 255)%nat /\ 1 <= Z_of_byte (counter f) <= 255 \/
                   k = 255%nat /\ counter f = x00).
  { destruct (Nat.eq_dec k 255) as [->|Hne].
    - right. split; [reflexivity|].
      rewrite <- (byte_of_Z_of_byte (counter f)), Hc. reflexivity.
    - left. rewrite Z.mod_small in Hc by lia. lia. }
  assert (Hexpr : Z_of_byte (byte_add (byte_sub xff (counter f)) x01)
                  = 255 - Z.of_nat k).
  { rewrite capacity_byte.
    destruct Hcases as [[Hlt Hrange]|[-> ->]]; [|reflexivity].
    rewrite Z.mod_small in Hc by lia. rewrite Hc, Z.mod_small; lia. }
  split; [exact Hk|]. split; [exact Hc|]. split; [exact Hcases|].
  split; [exact Hexpr|]. split; [rewrite Hexpr; exact Hrem'|].
  rewrite Z2Nat.id in Hrem by exact Ht.
  split; [exact Hrem|]. split.
  - intros H0. destruct Hcases as [[_ Hrange]|[-> _]].
    + rewrite H0 in Hrange. cbn in Hrange. lia.
    + rewrite Hrem', Hexpr. split; lia.
  - intros p i Hi H0.
    destruct (generated_at_block _ _ _ _ _ p i Hr Hi) as [Hb Hati].
    pose proof (counter_at_block _ _ _ _ Hati) as Hci.
    rewrite H0, Z.mod_small in Hci by lia. cbn in Hci. lia.
Qed.

End Properties.

(** ** Extraction and the composition *)

Section Extraction.

Context {H : HashFn}.

(** C7.  [Extract] with a nil salt is [Extract] with a salt of [Size] zero
    bytes. *)
Theorem Extract_nil_salt : forall secret : list byte,
  Extract secret None = Extract secret (Some (repeat x00 Size)).
Proof.
  intros secret. reflexivity.
Qed.

(** C10.  A salt that is present keys the extractor as it is, the empty one
    included: only the nil salt is replaced by [Size] zero bytes.  Unless
    digests are empty, the two keys differ. *)
Theorem Extract_empty_salt : forall secret : list byte,
  (forall s, Extract_salt (Some s) = s /\ Extract secret (Some s) = hmac_sum s secret) /\
  Extract_salt (Some []) = [] /\
  Extract secret (Some []) = hmac_sum [] secret /\
  Extract_salt None = repeat x00 Size /\
  Extract secret None = hmac_sum (repeat x00 Size) secret /\
  ((0 < Size)%nat -> Extract_salt None <> Extract_salt (Some [])).
Proof.
  intros secret. repeat split.
  intros Hpos Heq. apply (f_equal (@length byte)) in Heq.
  cbn in Heq. unfold make in Heq. rewrite repeat_length in Heq. lia.
Qed.

(** C6.  [New(hash, secret, salt, info)] is the reader
    [Expand(hash, Extract(hash, secret, salt), info)], so that any sequence of
    calls of [Read] has the same outcomes on both; the key of its expander is
    the HMAC of the secret under the salt. *)
Theorem New_Expand_Extract : forall (secret : list byte)
    (salt : option (list byte)) (info : list byte) (ps : list (list byte)),
  New secret salt info = Expand (Extract secret salt) info /\
  reads (New secret salt info) ps
  = reads (Expand (Extract secret salt) info) ps /\
  hkey (expander (New secret salt info))
  = hmac_sum (Extract_salt salt) secret /\
  reachable (Extract secret salt) info 0 O (New secret salt info).
Proof.
  intros secret salt info ps.
  split; [reflexivity|]. split; [reflexivity|]. split; [reflexivity|].
  apply reach_Expand.
Qed.

End Extraction.

(** ** The properties at work on the toy hash

    [Toy.fresh] is [Expand(hash, {1}, {2})]; its digests have two bytes, so
    it can return 510 bytes. *)

Lemma Read_block_chain_witness :
  reachable (H := Toy.hash) [x01] [x02] 0 0 Toy.fresh /\
  (1 < Read_blocks (H := Toy.hash) Toy.fresh [x00; x00; x00])%nat /\
  Z_of_byte (counter (Nat.iter 1 (gen_block (H := Toy.hash)) Toy.fresh)) = 2 /\
  prev (gen_block (H := Toy.hash) (Nat.iter 1 (gen_block (H := Toy.hash)) Toy.fresh))
  = Toy.digest [x01] ([x04; x02] ++ [x02] ++ [x02]).
Proof.
  assert (Hr : reachable (H := Toy.hash) [x01] [x02] 0 0 Toy.fresh)
    by apply reach_Expand.
  assert (Hi : (1 < Read_blocks (H := Toy.hash) Toy.fresh [x00; x00; x00])%nat)
    by (vm_compute; lia).
  split; [exact Hr|]. split; [exact Hi|].
  destruct (Read_block_chain (H := Toy.hash) [x01] [x02] 0 0 Toy.fresh
              [x00; x00; x00] 1 Hr Hi)
    as (_ & _ & _ & Hc & Hd & _).
  split; [exact Hc | exact Hd].
Defined.

(** C2, as stated, fails beyond the limit.  On the toy hash, [Read] of one
    byte returns that byte, the following [Read] of 510 bytes is refused,
    and so is a single [Read] of 511 bytes on a fresh reader: the two calls
    hand out one byte, the single call none. *)
Lemma Read_split_beyond_limit :
  Read (H := Toy.hash) Toy.fresh [x00]
  = Some (mk_outcome 1 None Toy.after_one [x04]) /\
  Read (H := Toy.hash) Toy.after_one (repeat x00 510)
  = Some (mk_outcome 0 (Some errEntropyLimit) Toy.after_one (repeat x00 510)) /\
  Read (H := Toy.hash) Toy.fresh (repeat x00 511)
  = Some (mk_outcome 0 (Some errEntropyLimit) Toy.fresh (repeat x00 511)) /\
  bytes_read (mk_outcome 1 None Toy.after_one [x04])
  ++ bytes_read (mk_outcome 0 (Some errEntropyLimit) Toy.after_one (repeat x00 510))
  <> bytes_read (mk_outcome 0 (Some errEntropyLimit) Toy.fresh (repeat x00 511)).
Proof.
  split; [vm_compute; reflexivity|].
  split; [vm_compute; reflexivity|].
  split; [vm_compute; reflexivity|].
  vm_compute. discriminate.
Qed.

Lemma Read_split_concat_witness :
  length [x00; x00; x00; x00; x00]
  = (length [x00; x00] + length [x00; x00; x00])%nat /\
  (length [x00; x00; x00; x00; x00] <= 255 * @Size Toy.hash)%nat /\
  exists oa ob ol,
    Read (H := Toy.hash) Toy.fresh [x00; x00] = Some oa /\
    Read (H := Toy.hash) (after oa) [x00; x00; x00] = Some ob /\
    Read (H := Toy.hash) Toy.fresh [x00; x00; x00; x00; x00] = Some ol /\
    bytes_read oa ++ bytes_read ob = bytes_read ol.
Proof.
  assert (Hs : length [x00; x00; x00; x00; x00]
               = (length [x00; x00] + length [x00; x00; x00])%nat)
    by reflexivity.
  assert (Hl : (length [x00; x00; x00; x00; x00] <= 255 * @Size Toy.hash)%nat)
    by (vm_compute; lia).
  split; [exact Hs|]. split; [exact Hl|].
  destruct (Read_split_concat (H := Toy.hash) [x01] [x02]
              [x00; x00] [x00; x00; x00] [x00; x00; x00; x00; x00] Hs Hl)
    as (oa & ob & ol & Ha & Hb & Hc & _ & _ & _ & _ & _ & _ & Heq & _).
  exists oa, ob, ol. repeat split; assumption.
Defined.

Lemma Read_limit_boundary_witness :
  length (repeat x00 510) = (255 * @Size Toy.hash)%nat /\
  length (repeat x01 511) = (255 * @Size Toy.hash + 1)%nat /\
  (exists f', Read (H := Toy.hash) Toy.fresh (repeat x00 510)
              = Some (mk_outcome 510 None f' (okm (H := Toy.hash) [x01] [x02]))) /\
  Read (H := Toy.hash) Toy.fresh (repeat x01 511)
  = Some (mk_outcome 0 (Some errEntropyLimit) Toy.fresh (repeat x01 511)).
Proof.
  assert (Hp : length (repeat x00 510) = (255 * @Size Toy.hash)%nat)
    by (vm_compute; reflexivity).
  assert (Hq : length (repeat x01 511) = (255 * @Size Toy.hash + 1)%nat)
    by (vm_compute; reflexivity).
  split; [exact Hp|]. split; [exact Hq|].
  exact (Read_limit_boundary (H := Toy.hash) [x01] [x02] _ _ Hp Hq).
Defined.

Lemma Read_total_bounded_witness :
  reachable (H := Toy.hash) [x01] [x02] 0 0 Toy.fresh /\
  0 <= 0 <= 255 * Z.of_nat (@Size Toy.hash).
Proof.
  assert (Hr : reachable (H := Toy.hash) [x01] [x02] 0 0 Toy.fresh)
    by apply reach_Expand.
  split; [exact Hr|].
  exact (proj1 (Read_total_bounded (H := Toy.hash) [x01] [x02] 0 0 Toy.fresh Hr)).
Defined.

Lemma Read_error_no_effect_witness :
  let o := mk_outcome 0 (Some errEntropyLimit) Toy.fresh (repeat x00 511) in
  Read (H := Toy.hash) Toy.fresh (repeat x00 511) = Some o /\
  ret_err o <> None /\
  p_after o = repeat x00 511 /\ after o = Toy.fresh.
Proof.
  intros o.
  assert (HR : Read (H := Toy.hash) Toy.fresh (repeat x00 511) = Some o)
    by (vm_compute; reflexivity).
  assert (He : ret_err o <> None) by (simpl; discriminate).
  split; [exact HR|]. split; [exact He|].
  destruct (Read_error_no_effect (H := Toy.hash) Toy.fresh (repeat x00 511) o HR He)
    as (_ & _ & Hp & Hf).
  split; [exact Hp | exact Hf].
Defined.

Lemma Read_zero_length_witness :
  reachable (H := Toy.hash) [x01] [x02] 0 0 Toy.fresh /\
  length (@nil byte) = O /\
  Read (H := Toy.hash) Toy.fresh [] = Some (mk_outcome 0 None Toy.fresh []).
Proof.
  assert (Hr : reachable (H := Toy.hash) [x01] [x02] 0 0 Toy.fresh)
    by apply reach_Expand.
  split; [exact Hr|]. split; [reflexivity|].
  exact (proj1 (Read_zero_length (H := Toy.hash) [x01] [x02] 0 0 Toy.fresh []
                  Hr eq_refl)).
Defined.

(** The reader that has returned all its 510 bytes: the counter has wrapped
    to 0 and nothing is left. *)
Lemma counter_capacity_witness :
  let f := after Toy.drained_outcome in
  reachable (H := Toy.hash) [x01] [x02] 510 255 f /\
  counter f = x00 /\
  remains f = 0.
Proof.
  intros f.
  assert (HR : Read (H := Toy.hash) Toy.fresh (repeat x00 510)
               = Some Toy.drained_outcome)
    by (vm_compute; reflexivity).
  pose proof (reach_Read (H := Toy.hash) [x01] [x02] 0 0 Toy.fresh _ _
                (reach_Expand [x01] [x02]) HR) as Hr.
  assert (Hr' : reachable (H := Toy.hash) [x01] [x02] 510 255 f).
  { vm_compute in Hr. vm_compute. exact Hr. }
  split; [exact Hr'|].
  destruct (counter_capacity (H := Toy.hash) [x01] [x02] 510 255 f Hr')
    as (_ & _ & Hcase & _ & _ & Hrem & _).
  destruct Hcase as [[Hlt _]|[_ Hc]]; [lia|].
  split; [exact Hc | exact Hrem].
Defined.

Lemma Extract_empty_salt_witness :
  (0 < @Size Toy.hash)%nat /\
  Extract_salt (H := Toy.hash) None <> Extract_salt (H := Toy.hash) (Some []).
Proof.
  assert (Hpos : (0 < @Size Toy.hash)%nat) by (vm_compute; lia).
  split; [exact Hpos|].
  destruct (Extract_empty_salt (H := Toy.hash) []) as (_ & _ & _ & _ & _ & Hne).
  exact (Hne Hpos).
Defined.

(** ** Further properties of the reader *)

Section Further.

Context {H : HashFn}.
Variables prk info0 : list byte.

Local Abbreviation T := (T prk info0).
Local Abbreviation blocks := (blocks prk info0).
Local Abbreviation okm := (okm prk info0).
Local Abbreviation reachable := (reachable prk info0).
Local Abbreviation last_input := (last_input prk info0).

(** [reach_Read], with the indices and the reader computed apart. *)
Lemma reachable_step : forall t k f p o t' k' f',
  reachable t k f -> Read f p = Some o ->
  t' = t + ret_n o -> k' = (k + Read_blocks f p)%nat -> f' = after o ->
  reachable t' k' f'.
Proof.
  intros t k f p o t' k' f' Hr HR -> -> ->. exact (reach_Read _ _ _ _ _ _ _ Hr HR).
Qed.

(** X1.  In a reader that has returned [t] bytes, a request within the
    [255 * Size - t] bytes that are left is served in full with the bytes
    [t .. t + len(p)] of the output keying material [T(1) | ... | T(255)] of
    RFC 5869, whatever the buffer held before, and no error. *)
Theorem Read_serves_okm : forall t k f (p : list byte),
  reachable t k f ->
  len p <= 255 * Z.of_nat Size - t ->
  exists o,
    Read f p = Some o /\
    ret_n o = len p /\
    ret_err o = None /\
    p_after o = firstn (length p) (skipn (Z.to_nat t) okm) /\
    length (p_after o) = length p /\
    reachable (t + len p) (k + Read_blocks f p) (after o).
Proof.
  intros t k f p Hr Hfit.
  destruct (reachable_Inv _ _ _ _ _ Hr) as [Ht _].
  destruct (Read_reachable _ _ _ _ _ p Hr) as [[_ (f' & HR & Hr')]|[Hover _]];
    [|lia].
  eexists. split; [exact HR|]. cbn [ret_n ret_err p_after after].
  repeat split; try assumption.
  rewrite length_firstn, length_skipn, okm_length. unfold len in Hfit. lia.
Qed.

(** A sequence of calls leaves a reachable reader, the total being what
    the calls returned. *)
Lemma reads_reachable : forall ps os t k f,
  reachable t k f -> reads f ps = Some os ->
  0 <= total_returned os /\
  Forall (fun o => 0 <= ret_n o) os /\
  exists k', reachable (t + total_returned os) k' (last_state f os).
Proof.
  induction ps as [|p ps IH]; intros os t k f Hr Hrs.
  - injection Hrs as <-. cbn. split; [lia|]. split; [constructor|].
    exists k. rewrite Z.add_0_r. exact Hr.
  - cbn [reads] in Hrs.
    destruct (Read f p) as [o|] eqn:HR; [|discriminate].
    destruct (reads (after o) ps) as [os'|] eqn:Hos; [|discriminate].
    injection Hrs as <-.
    pose proof (reach_Read prk info0 t k f p o Hr HR) as Hr'.
    destruct (IH _ _ _ _ Hr' Hos) as (H0 & Hall & k' & Hk').
    assert (Hn : 0 <= ret_n o).
    { destruct (Read_reachable _ _ _ _ _ p Hr) as [[_ (f' & HR' & _)]|[_ HR']];
        rewrite HR' in HR; injection HR as <-; cbn [ret_n]; unfold len; lia. }
    cbn [total_returned fold_right last_state]. fold (total_returned os').
    split; [lia|]. split; [constructor; assumption|].
    exists k'. rewrite Z.add_assoc. exact Hk'.
Qed.

(** The bytes of a sequence of calls, from a reader that has returned [t]
    bytes. *)
Lemma reads_concat_from : forall ps os t k f,
  reachable t k f -> reads f ps = Some os ->
  concat (map bytes_read os)
  = firstn (Z.to_nat (total_returned os)) (skipn (Z.to_nat t) okm).
Proof.
  induction ps as [|p ps IH]; intros os t k f Hr Hrs.
  - injection Hrs as <-. reflexivity.
  - destruct (reads_reachable _ _ _ _ _ Hr Hrs) as (_ & Hall & _).
    cbn [reads] in Hrs.
    destruct (Read f p) as [o|] eqn:HR; [|discriminate].
    destruct (reads (after o) ps) as [os'|] eqn:Hos; [|discriminate].
    injection Hrs as <-.
    pose proof (reach_Read prk info0 t k f p o Hr HR) as Hr'.
    destruct (reads_reachable _ _ _ _ _ Hr' Hos) as (H0 & _ & _).
    destruct (reachable_Inv _ _ _ _ _ Hr) as [Ht _].
    cbn [map concat total_returned fold_right]. fold (total_returned os').
    rewrite (IH _ _ _ _ Hr' Hos).
    destruct (Read_reachable _ _ _ _ _ p Hr) as [[_ (f' & HR' & _)]|[_ HR']];
      rewrite HR' in HR; injection HR as <-;
      unfold bytes_read; cbn [ret_n p_after].
    + unfold len. rewrite Nat2Z.id, firstn_firstn, Nat.min_id.
      replace (Z.to_nat (Z.of_nat (length p) + total_returned os'))
        with (length p + Z.to_nat (total_returned os'))%nat by lia.
      replace (Z.to_nat (t + Z.of_nat (length p)))
        with (length p + Z.to_nat t)%nat by lia.
      rewrite firstn_add_skipn, skipn_skipn. reflexivity.
    + rewrite Z.add_0_r. reflexivity.
Qed.

(** X2.  Whatever the sizes of the requests, the refused ones included,
    the bytes that a sequence of calls of [Read] on [Expand(hash, prk, info)]
    returns, put end to end, are the first bytes of [T(1) | ... | T(255)], as
    many as the calls returned: the stream does not depend on how it is cut
    into calls. *)
Theorem reads_concat_okm : forall ps : list (list byte),
  exists os,
    reads (Expand prk info0) ps = Some os /\
    0 <= total_returned os <= 255 * Z.of_nat Size /\
    concat (map bytes_read os) = firstn (Z.to_nat (total_returned os)) okm.
Proof.
  intros ps.
  pose proof (reach_Expand prk info0) as Hr0.
  destruct (reads_bounded _ _ ps _ _ _ Hr0) as (os & Hos & H0 & Hle).
  exists os. split; [exact Hos|]. split; [lia|].
  exact (reads_concat_from _ _ _ _ _ Hr0 Hos).
Qed.

Lemma fill_frame : forall fuel (f : hkdf) filled p n f' out n',
  fill fuel f filled p n = Some (f', out, n') ->
  size f' = size f /\
  info f' = info f /\
  hkey (expander f') = hkey (expander f) /\
  length out = (length filled + length p)%nat.
Proof.
  induction fuel as [|fuel IH]; intros f filled p n f' out n' Hfill.
  - destruct p as [|b p]; [|discriminate].
    injection Hfill as <- <- <-. cbn. auto.
  - destruct p as [|b p].
    + injection Hfill as <- <- <-. cbn. auto.
    + rewrite fill_step in Hfill. cbv zeta in Hfill.
      apply IH in Hfill. destruct Hfill as (Hs & Hi & Hk & Hl).
      split; [exact Hs|]. split; [exact Hi|]. split; [exact Hk|].
      rewrite Hl, length_app, length_firstn, length_skipn. lia.
Qed.

(** X3.  In any state of the reader, a call of [Read] leaves the [size] and
    [info] fields and the key of the expander as they were, and the
    caller's buffer at its length. *)
Theorem Read_frame : forall (f : hkdf) (p : list byte) (o : outcome),
  Read f p = Some o ->
  size (after o) = size f /\
  info (after o) = info f /\
  hkey (expander (after o)) = hkey (expander f) /\
  length (p_after o) = length p.
Proof.
  intros f p o HR.
  destruct (remains f <? len p) eqn:Hck.
  - unfold Read in HR. rewrite Hck in HR. injection HR as <-. cbn. auto.
  - rewrite (Read_pass f p Hck) in HR. cbv zeta in HR.
    destruct (fill _ _ _ _ _) as [[[g filled] n]|] eqn:Hfill; [|discriminate].
    injection HR as <-. cbn [after p_after size info expander set_buf].
    apply fill_frame in Hfill. destruct Hfill as (Hs & Hi & Hk & Hl).
    split; [exact Hs|]. split; [exact Hi|]. split; [exact Hk|].
    rewrite Hl, length_firstn, length_skipn. lia.
Qed.

(** X4.  In every reachable reader, [prev] is the last block generated
    (empty before the first one, [Size] bytes after), [buf] is the end of
    [prev] that was not returned yet, of at most [Size - 1] bytes, and what
    was generated is what was returned plus what is buffered. *)
Theorem buf_invariant : forall t k f,
  reachable t k f ->
  prev f = T k /\
  (k = O /\ prev f = [] \/ length (prev f) = Size) /\
  buf f = skipn (length (prev f) - length (buf f)) (prev f) /\
  (length (buf f) <= Size - 1)%nat /\
  t + len (buf f) = Z.of_nat k * Z.of_nat Size.
Proof.
  intros t k f Hr.
  destruct (reachable_Inv _ _ _ _ _ Hr) as [Ht HI].
  destruct (Inv_buf_length _ _ _ _ _ HI) as [Hlen Hle].
  destruct HI as (Hk & (_ & _ & _ & _ & Hprev) & Htk & Hlast & Hbuf).
  split; [exact Hprev|].
  assert (Hsum : t + len (buf f) = Z.of_nat k * Z.of_nat Size).
  { unfold len. apply (f_equal Z.of_nat) in Hlen.
    rewrite Nat2Z.inj_add, Nat2Z.inj_mul in Hlen. lia. }
  destruct k as [|q].
  - rewrite Hprev. cbn in Hbuf. rewrite skipn_nil in Hbuf. rewrite Hbuf.
    split; [left; split; reflexivity|]. split; [reflexivity|].
    split; [cbn; lia|]. rewrite Hbuf in Hsum. exact Hsum.
  - destruct Hlast as [Hq|Hlast]; [discriminate|].
    cbn [Nat.sub] in Hlast. rewrite Nat.sub_0_r in Hlast.
    cbn [Nat.mul] in Hlen, Htk.
    split; [right; rewrite Hprev; apply T_length|].
    split; [|split; [lia | exact Hsum]].
    rewrite Hprev, T_length.
    set (lb := length (buf f)) in *.
    rewrite Hbuf, (blocks_snoc prk info0 q), skipn_app, blocks_length.
    rewrite (skipn_all2 (blocks 0 q)) by (rewrite blocks_length; lia).
    cbn [app]. f_equal. lia.
Qed.

(** X5.  The reader generates blocks only as they are needed: after [t]
    bytes were returned, the number of blocks generated is [t / Size]
    rounded up, so that the last block generated holds the last byte
    returned. *)
Theorem blocks_on_demand : forall t k f,
  reachable t k f ->
  (0 < Size)%nat ->
  Z.of_nat k = (t + Z.of_nat Size - 1) / Z.of_nat Size.
Proof.
  intros t k f Hr Hpos.
  destruct (reachable_Inv _ _ _ _ _ Hr) as [Ht (Hk & _ & Htk & Hlast & _)].
  apply (Z.div_unique_pos _ _ _ (t + Z.of_nat Size - 1 - Z.of_nat Size * Z.of_nat k));
    [|lia].
  assert (Htk' : t <= Z.of_nat k * Z.of_nat Size).
  { rewrite <- Nat2Z.inj_mul. lia. }
  destruct Hlast as [->|Hlast]; [cbn in *; lia|].
  destruct k as [|q]; [cbn in *; lia|].
  cbn [Nat.sub] in Hlast. rewrite Nat.sub_0_r in Hlast.
  assert (Hq : Z.of_nat q * Z.of_nat Size < t).
  { rewrite <- Nat2Z.inj_mul. lia. }
  rewrite Nat2Z.inj_succ in *. nia.
Qed.

(** X6.  In every reachable reader, a request that the buffered bytes
    cover is served from them alone: the first bytes of [buf] are copied,
    [buf] is cut by as many, no block is generated, and the counter, [prev]
    and the expander are as they were. *)
Theorem Read_from_buffer : forall t k f (p : list byte),
  reachable t k f ->
  (length p <= length (buf f))%nat ->
  Read f p
  = Some (mk_outcome (len p) None
            (set_buf f (skipn (length p) (buf f)))
            (firstn (length p) (buf f))) /\
  Read_blocks f p = O.
Proof.
  intros t k f p Hr Hfit.
  destruct (reachable_Inv _ _ _ _ _ Hr) as [Ht HI].
  pose proof (Inv_remains _ _ _ _ _ HI) as Hrem.
  destruct (Inv_buf_length _ _ _ _ _ HI) as [Hlen _].
  destruct HI as (Hk & _).
  assert (Hck : (remains f <? len p) = false).
  { apply Z.ltb_ge. rewrite Hrem. unfold len.
    assert (k * Size <= 255 * Size)%nat by (apply Nat.mul_le_mono_r; exact Hk).
    lia. }
  rewrite (Read_pass f p Hck), (Read_blocks_pass f p Hck). cbv zeta.
  rewrite Nat.min_l by exact Hfit.
  rewrite skipn_all. destruct p; split; reflexivity.
Qed.

(** X7.  The first block.  A first request of at most [Size] bytes on
    [Expand(hash, prk, info)] returns the first bytes of
    [HMAC(prk, info | 0x01)]: the previous block is empty and the counter
    byte is 1. *)
Theorem Read_first_block : forall p : list byte,
  (length p <= Size)%nat ->
  exists f',
    Read (Expand prk info0) p
    = Some (mk_outcome (len p) None f'
              (firstn (length p) (hmac_sum prk (info0 ++ [x01])))).
Proof.
  intros p Hp.
  pose proof (reach_Expand prk info0) as Hr0.
  destruct (Read_reachable _ _ _ _ _ p Hr0) as [[_ (f' & HR & _)]|[Hover _]].
  - exists f'. rewrite HR. do 2 f_equal.
    cbn [Z.to_nat skipn]. rewrite (okm_split prk info0 1) by lia.
    rewrite firstn_app, blocks_length.
    replace (length p - 1 * Size)%nat with O by lia.
    rewrite firstn_O, app_nil_r.
    change (blocks 0 1) with (T 1 ++ []). rewrite app_nil_r, T_succ.
    reflexivity.
  - unfold len in Hover. lia.
Qed.

(** A refused request is one beyond what is left. *)
Lemma refused_over : forall t k f (p : list byte),
  reachable t k f ->
  (Read f p = Some (mk_outcome 0 (Some errEntropyLimit) f p)
   <-> 255 * Z.of_nat Size - t < len p).
Proof.
  intros t k f p Hr.
  destruct (Read_reachable _ _ _ _ _ p Hr) as [[Hfit (f' & HR & _)]|[Hover HR]];
    rewrite HR; split; intros Hx; try lia; try reflexivity.
  injection Hx as _ Hx _. discriminate.
Qed.

(** X8.  A refused request stays refused: if [Read(p)] returns the
    entropy-limit error in a reachable reader, it returns it again after any
    further calls on that reader. *)
Theorem refusal_is_final : forall t k f (p : list byte) ps os,
  reachable t k f ->
  Read f p = Some (mk_outcome 0 (Some errEntropyLimit) f p) ->
  reads f ps = Some os ->
  Read (last_state f os) p
  = Some (mk_outcome 0 (Some errEntropyLimit) (last_state f os) p).
Proof.
  intros t k f p ps os Hr Hrefused Hos.
  destruct (reads_reachable _ _ _ _ _ Hr Hos) as (H0 & _ & k' & Hr').
  apply (refused_over _ _ _ p Hr) in Hrefused.
  apply (refused_over _ _ _ p Hr'). lia.
Qed.

(** The expander holds what it was fed for the last block. *)
Lemma reachable_last_input : forall t k f, reachable t k f ->
  hmsg (expander f) = last_input k.
Proof.
  induction 1 as [|t k f p o Hr IH HR].
  - reflexivity.
  - destruct (reachable_Inv _ _ _ _ _ Hr) as [Ht HI].
    destruct (Nat.le_gt_cases (Z.to_nat t + length p) (255 * Size)) as [Hc|Hc].
    + destruct (Read_ok _ _ _ _ _ p HI Hc) as (f' & HR' & _ & Hf').
      rewrite HR' in HR. injection HR as <-. cbn [after].
      rewrite Hf'. cbn [expander set_buf].
      destruct (Read_blocks f p) as [|j].
      * rewrite Nat.add_0_r. exact IH.
      * replace (k + S j)%nat with (S (k + j)) by lia.
        change (Nat.iter (S j) gen_block f)
          with (gen_block (Nat.iter j gen_block f)).
        assert (Hat : at_block prk info0 (k + j) (Nat.iter j gen_block f)).
        { apply at_block_iter. destruct HI as (_ & Hat & _). exact Hat. }
        set (g := Nat.iter j gen_block f) in *.
        destruct Hat as (_ & _ & Hinfo & Hctr & Hprev).
        unfold gen_block, Write, Reset. cbn [expander hmsg hkey app].
        rewrite Hinfo, Hctr, Hprev, <- app_assoc. reflexivity.
    + destruct (Read_err _ _ _ _ _ p HI Hc) as [HR' Hb].
      rewrite HR' in HR. injection HR as <-. cbn [after].
      rewrite Hb, Nat.add_0_r. exact IH.
Qed.

Lemma Inv_blocks_unique : forall t k k' f f',
  Inv prk info0 t k f -> Inv prk info0 t k' f' -> k = k'.
Proof.
  assert (Hlt : forall t k k' f f',
             Inv prk info0 t k f -> Inv prk info0 t k' f' -> ~ (k < k')%nat).
  { intros t k k' f f' (_ & _ & Htk & _) (_ & _ & _ & Hlast & _) Hlt.
    destruct Hlast as [->|Hlast]; [lia|].
    assert (k * Size <= (k' - 1) * Size)%nat by (apply Nat.mul_le_mono_r; lia).
    lia. }
  intros t k k' f f' HI HI'.
  pose proof (Hlt _ _ _ _ _ HI HI'). pose proof (Hlt _ _ _ _ _ HI' HI). lia.
Qed.

(** X9.  The reader is determined by the number of bytes it has returned:
    two sequences of calls on [Expand(hash, prk, info)] that returned as many
    bytes in total leave the same reader, field by field, and have
    generated as many blocks. *)
Theorem state_by_total : forall t k k' f f',
  reachable t k f ->
  reachable t k' f' ->
  k = k' /\ f = f'.
Proof.
  intros t k k' f f' Hr Hr'.
  pose proof (reachable_last_input _ _ _ Hr) as Hm.
  pose proof (reachable_last_input _ _ _ Hr') as Hm'.
  destruct (reachable_Inv _ _ _ _ _ Hr) as [_ HI].
  destruct (reachable_Inv _ _ _ _ _ Hr') as [_ HI'].
  pose proof (Inv_blocks_unique _ _ _ _ _ HI HI') as <-.
  split; [reflexivity|].
  destruct HI as (_ & (Hkey & Hsize & Hinfo & Hctr & Hprev) & _ & _ & Hbuf).
  destruct HI' as (_ & (Hkey' & Hsize' & Hinfo' & Hctr' & Hprev') & _ & _ & Hbuf').
  destruct f as [[key msg] sz inf ctr prv bf].
  destruct f' as [[key' msg'] sz' inf' ctr' prv' bf'].
  cbn in *. congruence.
Qed.

End Further.

(** ** The composition, end to end *)

Section Derivation.

Context {H : HashFn}.


End Derivation.

(** ** The further properties at work on the toy hash *)

Lemma reachable_after_one :
  reachable (H := Toy.hash) [x01] [x02] 1 1 Toy.after_one.
Proof.
  eapply (reachable_step (H := Toy.hash) [x01] [x02] 0 0 Toy.fresh [x00]);
    [apply reach_Expand | vm_compute; reflexivity | reflexivity
    | vm_compute; reflexivity | reflexivity].
Defined.

Lemma Read_serves_okm_witness :
  reachable (H := Toy.hash) [x01] [x02] 1 1 Toy.after_one /\
  len [x00; x00] <= 255 * Z.of_nat (@Size Toy.hash) - 1 /\
  exists o, Read (H := Toy.hash) Toy.after_one [x00; x00] = Some o /\
            p_after o = [x02; x0b].
Proof.
  assert (Hfit : len [x00; x00] <= 255 * Z.of_nat (@Size Toy.hash) - 1)
    by (vm_compute; discriminate).
  split; [exact reachable_after_one|]. split; [exact Hfit|].
  destruct (Read_serves_okm (H := Toy.hash) [x01] [x02] 1 1 Toy.after_one
              [x00; x00] reachable_after_one Hfit)
    as (o & HR & _ & _ & Hp & _).
  exists o. split; [exact HR|]. rewrite Hp. vm_compute. reflexivity.
Defined.

Lemma Read_frame_witness :
  let o := mk_outcome 1 None Toy.after_one [x04] in
  Read (H := Toy.hash) Toy.fresh [x00] = Some o /\
  size (after o) = size Toy.fresh /\
  info (after o) = info Toy.fresh /\
  hkey (expander (after o)) = hkey (expander Toy.fresh) /\
  length (p_after o) = length [x00].
Proof.
  intros o.
  assert (HR : Read (H := Toy.hash) Toy.fresh [x00] = Some o)
    by (vm_compute; reflexivity).
  split; [exact HR|].
  exact (Read_frame (H := Toy.hash) Toy.fresh [x00] o HR).
Defined.

Lemma buf_invariant_witness :
  reachable (H := Toy.hash) [x01] [x02] 1 1 Toy.after_one /\
  buf Toy.after_one
  = skipn (length (prev Toy.after_one) - length (buf Toy.after_one))
      (prev Toy.after_one) /\
  (length (buf Toy.after_one) <= @Size Toy.hash - 1)%nat.
Proof.
  split; [exact reachable_after_one|].
  destruct (buf_invariant (H := Toy.hash) [x01] [x02] 1 1 Toy.after_one
              reachable_after_one)
    as (_ & _ & Hsuffix & Hshort & _).
  split; [exact Hsuffix | exact Hshort].
Defined.

Lemma blocks_on_demand_witness :
  reachable (H := Toy.hash) [x01] [x02] 3 2
    (Toy.read_state Toy.fresh [x00; x00; x00]) /\
  (0 < @Size Toy.hash)%nat /\
  Z.of_nat 2 = (3 + Z.of_nat (@Size Toy.hash) - 1) / Z.of_nat (@Size Toy.hash).
Proof.
  assert (Hr : reachable (H := Toy.hash) [x01] [x02] 3 2
                 (Toy.read_state Toy.fresh [x00; x00; x00])).
  { eapply (reachable_step (H := Toy.hash) [x01] [x02] 0 0 Toy.fresh
              [x00; x00; x00]);
      [apply reach_Expand | vm_compute; reflexivity | reflexivity
      | vm_compute; reflexivity | vm_compute; reflexivity]. }
  assert (Hpos : (0 < @Size Toy.hash)%nat) by (vm_compute; lia).
  split; [exact Hr|]. split; [exact Hpos|].
  exact (blocks_on_demand (H := Toy.hash) [x01] [x02] 3 2 _ Hr Hpos).
Defined.

Lemma Read_from_buffer_witness :
  reachable (H := Toy.hash) [x01] [x02] 1 1 Toy.after_one /\
  (length [x00] <= length (buf Toy.after_one))%nat /\
  Read (H := Toy.hash) Toy.after_one [x00]
  = Some (mk_outcome 1 None (set_buf Toy.after_one []) [x02]).
Proof.
  assert (Hfit : (length [x00] <= length (buf Toy.after_one))%nat)
    by (vm_compute; lia).
  split; [exact reachable_after_one|]. split; [exact Hfit|].
  exact (proj1 (Read_from_buffer (H := Toy.hash) [x01] [x02] 1 1 Toy.after_one
                  [x00] reachable_after_one Hfit)).
Defined.

Lemma Read_first_block_witness :
  (length [x00] <= @Size Toy.hash)%nat /\
  exists f', Read (H := Toy.hash) Toy.fresh [x00]
             = Some (mk_outcome 1 None f' [x04]).
Proof.
  assert (Hp : (length [x00] <= @Size Toy.hash)%nat) by (vm_compute; lia).
  split; [exact Hp|].
  exact (Read_first_block (H := Toy.hash) [x01] [x02] [x00] Hp).
Defined.

Lemma refusal_is_final_witness :
  let p := repeat x00 510 in
  let os := [mk_outcome 1 None (set_buf Toy.after_one []) [x02]] in
  reachable (H := Toy.hash) [x01] [x02] 1 1 Toy.after_one /\
  Read (H := Toy.hash) Toy.after_one p
  = Some (mk_outcome 0 (Some errEntropyLimit) Toy.after_one p) /\
  reads (H := Toy.hash) Toy.after_one [[x00]] = Some os /\
  Read (H := Toy.hash) (last_state Toy.after_one os) p
  = Some (mk_outcome 0 (Some errEntropyLimit) (last_state Toy.after_one os) p).
Proof.
  intros p os.
  assert (Hrefused : Read (H := Toy.hash) Toy.after_one p
                     = Some (mk_outcome 0 (Some errEntropyLimit) Toy.after_one p))
    by (vm_compute; reflexivity).
  assert (Hos : reads (H := Toy.hash) Toy.after_one [[x00]] = Some os)
    by (vm_compute; reflexivity).
  split; [exact reachable_after_one|]. split; [exact Hrefused|].
  split; [exact Hos|].
  exact (refusal_is_final (H := Toy.hash) [x01] [x02] 1 1 Toy.after_one p
           [[x00]] os reachable_after_one Hrefused Hos).
Defined.

(** Three bytes read at once, and one byte then two. *)
Lemma state_by_total_witness :
  let f := Toy.read_state Toy.fresh [x00; x00; x00] in
  let f' := Toy.read_state (Toy.read_state Toy.fresh [x00]) [x00; x00] in
  reachable (H := Toy.hash) [x01] [x02] 3 2 f /\
  reachable (H := Toy.hash) [x01] [x02] 3 2 f' /\
  f = f'.
Proof.
  intros f f'.
  assert (Hr : reachable (H := Toy.hash) [x01] [x02] 3 2 f).
  { eapply (reachable_step (H := Toy.hash) [x01] [x02] 0 0 Toy.fresh
              [x00; x00; x00]);
      [apply reach_Expand | vm_compute; reflexivity | reflexivity
      | vm_compute; reflexivity | vm_compute; reflexivity]. }
  assert (Hr' : reachable (H := Toy.hash) [x01] [x02] 3 2 f').
  { eapply (reachable_step (H := Toy.hash) [x01] [x02] 1 1 Toy.after_one
              [x00; x00]);
      [exact reachable_after_one | vm_compute; reflexivity | reflexivity
      | vm_compute; reflexivity | vm_compute; reflexivity]. }
  split; [exact Hr|]. split; [exact Hr'|].
  exact (proj2 (state_by_total (H := Toy.hash) [x01] [x02] 3 2 2 f f' Hr Hr')).
Defined.

